(** * elh::proqueue: a queue drained by one worker thread

    Shallow embedding of [src/proqueue.h].  The object is a record; member
    functions that can throw or hit undefined behaviour are computations in a
    small state-and-outcome monad; the worker thread [thread_work] and the
    calls other threads make are the labels of a step function, so that an
    interleaving is a list of labels that [run] executes. *)

From stdpp Require Import base tactics option list sorting strings.
From Stdlib Require Import Lia.

Module Elh.

(** The exceptions the header can raise: [std::out_of_range] (from
    [std::array::at] and from [add_callback]) and [std::system_error] (from
    [std::thread::join] on a handle that is not joinable). *)
Inductive exn : Type :=
| out_of_range (what : string)
| system_error.

(** Where the worker thread stands inside [thread_work] (lines 72-85). *)
Inductive worker_pc : Type :=
| AtLoop      (* line 74: about to test [!shutdown_required]            *)
| AtLock      (* line 75: about to take the lock                        *)
| AtCheck     (* line 77: lock held, about to test [state_is_ready()]   *)
| Waiting     (* line 77: inside [condition.wait], lock released        *)
| Woken       (* line 77: notified, re-takes the lock, re-tests         *)
| AtProc      (* line 78: lock held, about to call [proc_one()]         *)
| DrainTest   (* line 82: about to test [!empty()]                      *)
| DrainProc   (* line 83: about to call [proc_one()], no lock held      *)
| Exited.     (* line 85: [thread_work] has returned                    *)

Section proqueue.

Context {T World : Type}.

(** [std::function<void(T&)>]: a callback reads and may overwrite the value it
    is handed, and acts on whatever it captured ([World]: a log, a console).
    An empty [std::function] is [None].  Callbacks are taken to return
    normally and not to call back into the queue they are registered with. *)
Definition callback : Type := T → World → T * World.
Definition function_type : Type := option callback.

Definition MAX_TASK_SIZE : nat := 10.

(** One callback invocation, recorded for the proofs: the slot that held the
    callback, the value behind the reference when the callback was entered
    and when it returned, and the content of the queue when it was entered. *)
Record event : Type := Event {
  ev_slot : nat;
  ev_arg : T;
  ev_out : T;
  ev_stored : list T
}.

Record proqueue : Type := ProQueue {
  base : list T;                 (* the [std::queue<T>] base, front first  *)
  tasks : list function_type;    (* [std::array<function_type, 10>]        *)
  shutdown_required : bool;      (* line 37                                *)
  joinable : bool;               (* [thread.joinable()]                    *)
  wpc : worker_pc;               (* the worker thread                      *)
  pop_passed : nat;              (* callers of [pop] between 131 and 132   *)
  world : World;                 (* what the callbacks captured            *)
  calls : list event             (* ghost: invocations so far              *)
}.

Definition set_base (b : list T) (s : proqueue) : proqueue :=
  ProQueue b (tasks s) (shutdown_required s) (joinable s) (wpc s)
           (pop_passed s) (world s) (calls s).
Definition set_tasks (ts : list function_type) (s : proqueue) : proqueue :=
  ProQueue (base s) ts (shutdown_required s) (joinable s) (wpc s)
           (pop_passed s) (world s) (calls s).
Definition set_joinable (j : bool) (s : proqueue) : proqueue :=
  ProQueue (base s) (tasks s) (shutdown_required s) j (wpc s)
           (pop_passed s) (world s) (calls s).
Definition set_wpc (pc : worker_pc) (s : proqueue) : proqueue :=
  ProQueue (base s) (tasks s) (shutdown_required s) (joinable s) pc
           (pop_passed s) (world s) (calls s).
Definition set_pop_passed (n : nat) (s : proqueue) : proqueue :=
  ProQueue (base s) (tasks s) (shutdown_required s) (joinable s) (wpc s)
           n (world s) (calls s).

(** ** Outcomes

    A member function returns normally, leaves by an exception, ends the
    process through [std::terminate] (an exception escaping a [noexcept]
    function), or violates a precondition of the standard library, after
    which nothing is defined. *)
Inductive outcome (A : Type) : Type :=
| Ok (a : A) (s : proqueue)
| Throw (e : exn) (s : proqueue)
| Terminate
| Undefined.
Global Arguments Ok {A} a s.
Global Arguments Throw {A} e s.
Global Arguments Terminate {A}.
Global Arguments Undefined {A}.

Definition M (A : Type) : Type := proqueue → outcome A.

Local Instance M_ret : MRet M := λ A a s, Ok a s.
Local Instance M_bind : MBind M := λ A B k m s,
  match m s with
  | Ok a s' => k a s'
  | Throw e s' => Throw e s'
  | Terminate => Terminate
  | Undefined => Undefined
  end.

(** ** The inherited [std::queue<T>] members (lines 66-69, 132, 137) *)

Definition size (s : proqueue) : nat := length (base s).

Definition empty (s : proqueue) : bool :=
  match base s with [] => true | _ :: _ => false end.

(** [front()] and [back()] are the base class's: no check, a reference to the
    first (last) element, undefined on an empty queue. *)
Definition front : M T := λ s,
  match base s with
  | [] => Undefined
  | t :: _ => Ok t s
  end.

Definition back : M T := λ s,
  match last (base s) with
  | None => Undefined
  | Some t => Ok t s
  end.

Definition queue_pop : M unit := λ s,
  match base s with
  | [] => Undefined
  | _ :: rest => Ok tt (set_base rest s)
  end.

Definition queue_push (t : T) (s : proqueue) : proqueue :=
  set_base (base s ++ [t]) s.

(** ** Private helpers *)

(** Line 40-42. *)
Definition state_is_ready (s : proqueue) : bool :=
  negb (shutdown_required s) && negb (empty s).

(** The predicate handed to [condition.wait] on line 77. *)
Definition wait_pred (s : proqueue) : bool :=
  negb (empty s) || shutdown_required s.

(** The lock is a [std::recursive_mutex].  Calls from other threads take and
    release it within one step ([add_callback]) or drop it at once (line 131),
    so the only holder across steps is the worker, between line 75 and the end
    of the loop body, except while it waits. *)
Definition worker_holds_lock (pc : worker_pc) : bool :=
  match pc with
  | AtCheck | AtProc => true
  | _ => false
  end.

(** ** The callback registry *)

Fixpoint count_if {A} (p : A → bool) (l : list A) : nat :=
  match l with
  | [] => 0
  | a :: l' => (if p a then 1 else 0) + count_if p l'
  end.

Definition callable (f : function_type) : bool :=
  match f with Some _ => true | None => false end.

(** Lines 106-111. *)
Definition tasks_count (s : proqueue) : nat := count_if callable (tasks s).

(** Lines 98 and 117 index the registry with the expression [tasks()].
    [tasks] is the [std::array] itself and has no call operator: the
    expression is ill-formed, and neither the constructor nor [add_callback]
    can be instantiated as written.  Where a definition below needs a slot it
    reads the expression as [tasks_count()] (line 107), the one member that
    computes an index from the registry.  This is a reading, not what the
    source says; what does not depend on it is stated for [add_callback_at],
    which leaves the index open. *)
Definition tasks_index (s : proqueue) : nat := tasks_count s.

(** [tasks.at(i) = f]: [std::array::at] checks the index against the size of
    the array and throws [std::out_of_range] before anything is written. *)
Definition tasks_at_put (i : nat) (f : function_type) : M unit := λ s,
  if i <? MAX_TASK_SIZE
  then Ok tt (set_tasks (<[i := f]> (tasks s)) s)
  else Throw (out_of_range "array::at") s.

(** Lines 113-121.  The lock [l] lives until the function is left. *)
Definition add_callback (f : function_type) : M unit := λ s,
  match tasks_at_put (tasks_index s) f s with
  | Throw (out_of_range _) s' =>
      Throw (out_of_range "Size of tasks exceeds MAX_TASK_SIZE") s'
  | r => r
  end.

(** Line 117 with the index expression left open: whatever [tasks()] is
    meant to be, the statement is [tasks.at(index) = callback] inside the
    [try] block of lines 116-120. *)
Definition add_callback_at (index : proqueue → nat) (f : function_type)
  : M unit := λ s,
  match tasks_at_put (index s) f s with
  | Throw (out_of_range _) s' =>
      Throw (out_of_range "Size of tasks exceeds MAX_TASK_SIZE") s'
  | r => r
  end.

(** ** push and pop (lines 129-138) *)

(** Line 137 is the whole body: no lock, no [notify]. *)
Definition push (t : T) (s : proqueue) : proqueue := queue_push t s.

(** Line 131 builds a lock and drops it at once; line 132 then runs without
    it.  Called by the thread that holds the recursive mutex (the worker,
    from [proc_one]) line 131 never blocks. *)
Definition pop : M unit := queue_pop.

(** ** proc_one (lines 87-94) *)

(** [i(target)]: [target] is a reference to the front element, so what the
    callback writes lands in the queue. *)
Definition invoke (slot : nat) (f : callback) (s : proqueue) : proqueue :=
  match base s with
  | [] => s
  | t :: rest =>
      let '(t', w') := f t (world s) in
      ProQueue (t' :: rest) (tasks s) (shutdown_required s) (joinable s)
               (wpc s) (pop_passed s) w'
               (calls s ++ [Event slot t t' (base s)])
  end.

(** [for (auto& i : tasks) if (i) i(target);] from slot [slot] on. *)
Fixpoint run_tasks (ts : list function_type) (slot : nat) (s : proqueue)
  : proqueue :=
  match ts with
  | [] => s
  | None :: ts' => run_tasks ts' (S slot) s
  | Some f :: ts' => run_tasks ts' (S slot) (invoke slot f s)
  end.

Definition for_each_task : M unit := λ s,
  Ok tt (run_tasks (tasks s) 0 s).

Definition proc_one : M unit :=
  _ ← front; for_each_task;; pop.

(** ** Construction (lines 96-99)

    The member initialiser starts the thread; the body stores [func].  The
    pack [remaining] is not used.

    Members are initialised in declaration order, and [thread] (line 36) is
    declared before [shutdown_required] (line 37): the worker is running
    before the flag is set to [false].  [fresh] and [construct] give the
    object as the constructor leaves it when the worker has not yet made its
    first loop test (line 74), or made it after line 37 took effect.
    [construct_raced] is the other outcome. *)
Definition fresh (w : World) : proqueue :=
  ProQueue [] (replicate MAX_TASK_SIZE None) false true AtLoop 0 w [].

Definition construct (w : World) (func : function_type)
    (remaining : list function_type) : outcome unit :=
  tasks_at_put (tasks_index (fresh w)) func (fresh w).

(** The object the constructor leaves when the worker made its first loop
    test before line 37 took effect and read the uninitialised flag as set:
    the flag is [false] by now, and the worker has left its first loop for
    good and stands at line 82. *)
Definition construct_raced (w : World) (func : function_type)
    (remaining : list function_type) : outcome unit :=
  match construct w func remaining with
  | Ok u s => Ok u (set_wpc DrainTest s)
  | r => r
  end.

(** ** stop (lines 123-127) and the destructor (lines 101-104) *)

(** [condition.notify_one()]: wakes the worker if it is blocked in [wait],
    and is lost otherwise. *)
Definition notify_one (s : proqueue) : proqueue :=
  match wpc s with
  | Waiting => set_wpc Woken s
  | _ => s
  end.

(** [thread.join()]: throws on a handle that is not joinable, and otherwise
    returns once the thread has ended; [None] is a caller that is still
    blocked. *)
Definition thread_join (s : proqueue) : option (outcome unit) :=
  if joinable s then
    match wpc s with
    | Exited => Some (Ok tt (set_joinable false s))
    | _ => None
    end
  else Some (Throw system_error s).

(** [stop] is [noexcept]: an exception from [join] ends the process. *)
Definition stop_join (s : proqueue) : option (outcome unit) :=
  match thread_join s with
  | Some (Throw _ _) => Some Terminate
  | r => r
  end.

(** [stop()] as one call: line 125, then line 126. *)
Definition stop (s : proqueue) : option (outcome unit) :=
  stop_join (notify_one s).

Definition destroy (s : proqueue) : option (outcome unit) := stop s.

(** ** The worker thread (lines 72-85), one step at a time

    A call to [proc_one] is one step: what another thread can do meanwhile
    without the lock is [push], which appends behind the front, and line 132
    of [pop], which the interleavings below place before the call. *)

Definition goto (pc : worker_pc) (s : proqueue) : option (outcome unit) :=
  Some (Ok tt (set_wpc pc s)).

Definition then_goto (pc : worker_pc) (r : outcome unit)
  : option (outcome unit) :=
  match r with
  | Ok _ s' => goto pc s'
  | Throw _ _ => Some Terminate      (* [thread_work] is [noexcept] *)
  | Terminate => Some Terminate
  | Undefined => Some Undefined
  end.

Definition thread_work_step (s : proqueue) : option (outcome unit) :=
  match wpc s with
  | AtLoop => if shutdown_required s then goto DrainTest s else goto AtLock s
  | AtLock => goto AtCheck s
  | AtCheck =>
      if state_is_ready s then goto AtProc s
      else if wait_pred s then goto AtProc s
      else goto Waiting s
  | Waiting => None
  | Woken => if wait_pred s then goto AtProc s else goto Waiting s
  | AtProc => then_goto AtLoop (proc_one s)
  | DrainTest => if empty s then goto Exited s else goto DrainProc s
  | DrainProc => then_goto DrainTest (proc_one s)
  | Exited => None
  end.

(** ** Interleavings

    What the threads of a program can do to one queue, as labels: the calls
    of the public interface made by threads other than the worker, and a step
    of the worker.  [pop] and [stop] take two steps each, because another
    thread can run between their two lines.  [condition.wait] may also
    return without any [notify]; the worker then re-tests its predicate.

    Every label is indivisible and memory is sequentially consistent.  The
    source is not that well behaved: [push] takes no lock (line 137), so in
    C++ terms it races with the worker's [empty()], [front()] and [pop()],
    which is undefined behaviour that [step] never yields.  An interleaving
    of labels is therefore one execution the code can have, and a run that
    goes wrong here goes wrong in the code; that no run goes wrong here says
    nothing of the kind about the code. *)
Inductive label : Type :=
| call_push (t : T)
| call_add_callback (f : function_type)
| call_pop_lock           (* line 131 *)
| call_pop_body           (* line 132 *)
| call_stop_notify        (* line 125 *)
| call_stop_join          (* line 126 *)
| spurious_wakeup         (* [wait] may return without a [notify] *)
| worker.

(** [None]: the step cannot be taken now (the thread is blocked). *)
Definition step (l : label) (s : proqueue) : option (outcome unit) :=
  match l with
  | call_push t => Some (Ok tt (push t s))
  | call_add_callback f =>
      if worker_holds_lock (wpc s) then None else Some (add_callback f s)
  | call_pop_lock =>
      if worker_holds_lock (wpc s) then None
      else Some (Ok tt (set_pop_passed (S (pop_passed s)) s))
  | call_pop_body =>
      match pop_passed s with
      | 0 => None
      | S n => Some (queue_pop (set_pop_passed n s))
      end
  | call_stop_notify => Some (Ok tt (notify_one s))
  | call_stop_join => stop_join s
  | spurious_wakeup =>
      match wpc s with
      | Waiting => Some (Ok tt (set_wpc Woken s))
      | _ => None
      end
  | worker => thread_work_step s
  end.

Fixpoint run (ls : list label) (s : proqueue) : option (outcome unit) :=
  match ls with
  | [] => Some (Ok tt s)
  | l :: ls' =>
      match step l s with
      | Some (Ok _ s') => run ls' s'
      | r => r
      end
  end.

(** Labels of a program in which only the worker removes elements and no
    callback is registered after construction: [push], [stop], the worker. *)
Definition producer_label (l : label) : bool :=
  match l with
  | call_push _ | call_stop_notify | call_stop_join
  | spurious_wakeup | worker => true
  | _ => false
  end.

(** The values pushed along an interleaving, in order. *)
Fixpoint pushed (ls : list label) : list T :=
  match ls with
  | [] => []
  | call_push t :: ls' => t :: pushed ls'
  | _ :: ls' => pushed ls'
  end.

(** ** Well-formed registries

    The array has [MAX_TASK_SIZE] slots, and the occupied ones come first. *)
Fixpoint prefix_filled (ts : list function_type) : bool :=
  match ts with
  | [] => true
  | Some _ :: ts' => prefix_filled ts'
  | None :: ts' => forallb (λ f, negb (callable f)) ts'
  end.

Definition registry_ok (s : proqueue) : Prop :=
  length (tasks s) = MAX_TASK_SIZE ∧ prefix_filled (tasks s) = true.

(** The lowest index of an empty slot, if there is one. *)
Fixpoint first_free (ts : list function_type) : option nat :=
  match ts with
  | [] => None
  | None :: _ => Some 0
  | Some _ :: ts' => S <$> first_free ts'
  end.

(** The slots that hold a callback, lowest index first. *)
Fixpoint occupied_from (slot : nat) (ts : list function_type) : list nat :=
  match ts with
  | [] => []
  | None :: ts' => occupied_from (S slot) ts'
  | Some _ :: ts' => slot :: occupied_from (S slot) ts'
  end.

(** The value behind the reference as it goes through a run of invocations:
    the first callback is handed [t], each later one what its predecessor
    left, and [t_end] is what the last one left. *)
Fixpoint handed_on (t : T) (evs : list event) (t_end : T) : Prop :=
  match evs with
  | [] => t_end = t
  | e :: evs' => ev_arg e = t ∧ handed_on (ev_out e) evs' t_end
  end.

(** The invocations [evs] as calls of the registered callbacks: every event
    is the callback stored in its slot, applied to the value and to the
    captured state its predecessor left (the first one to [t] and [w]); it
    leaves [ev_out] behind the reference; [t_end] and [w_end] are what the
    last one left. *)
Fixpoint invoked (ts : list function_type) (evs : list event)
    (t : T) (w : World) (t_end : T) (w_end : World) : Prop :=
  match evs with
  | [] => t_end = t ∧ w_end = w
  | e :: evs' =>
      ∃ g w', ts !! ev_slot e = Some (Some g) ∧ ev_arg e = t ∧
              g t w = (ev_out e, w') ∧
              invoked ts evs' (ev_out e) w' t_end w_end
  end.

(** The worker is inside its first loop (lines 74-79). *)
Definition in_first_loop (pc : worker_pc) : bool :=
  match pc with
  | DrainTest | DrainProc | Exited => false
  | _ => true
  end.

(** A queue whose worker is running its first loop, with the shutdown flag
    down and the thread handle still joinable. *)
Definition live (s : proqueue) : Prop :=
  shutdown_required s = false ∧ joinable s = true ∧
  in_first_loop (wpc s) = true.

(** Whenever the worker is about to call [proc_one] from its first loop, the
    queue holds an element. *)
Definition proc_guarded (s : proqueue) : Prop :=
  wpc s = AtProc → base s ≠ [].

(** A call that leaves by an exception. *)
Definition fails_with {A} (r : outcome A) (e : exn) : Prop :=
  ∃ s', r = Throw e s'.

End proqueue.

Global Arguments callback : clear implicits.
Global Arguments function_type : clear implicits.
Global Arguments event : clear implicits.
Global Arguments proqueue : clear implicits.
Global Arguments label : clear implicits.
Global Arguments outcome : clear implicits.
Global Arguments M : clear implicits.
Global Arguments fresh T {World} w.

(** Case analysis on where the worker stands. *)
Ltac case_pc s :=
  let E := fresh "Epc" in
  destruct (wpc s) eqn:E; simpl; rewrite ?E in *; simpl in *.

(** ** A callback that appends its argument to a log *)

Definition append_to_log {T : Type} : callback T (list T) :=
  λ t log, (t, log ++ [t]).

(** The registry of a queue constructed with [append_to_log] alone. *)
Definition logs_only {T : Type} (s : proqueue T (list T)) : Prop :=
  tasks s = Some append_to_log :: replicate 9 None.

(** ** Concrete queues

    Queues of [nat] whose callbacks share a log, and the interleavings used
    below. *)

(** [proqueue<nat> q { append_to_log }]. *)
Definition logged_queue : proqueue nat (list nat) :=
  set_tasks (Some append_to_log :: replicate 9 None) (fresh nat []).

(** The same queue once the worker has found it empty and gone to sleep. *)
Definition waiting_queue : proqueue nat (list nat) :=
  set_wpc Waiting logged_queue.

(** A queue with all ten slots taken. *)
Definition full_queue : proqueue nat (list nat) :=
  set_tasks (replicate 10 (Some append_to_log)) (fresh nat []).

(** A callback that writes through the reference it is handed. *)
Definition double : callback nat (list nat) := λ t log, (2 * t, log).

(** Slots 0 and 2 taken, slot 1 empty, two values stored. *)
Definition two_task_queue : proqueue nat (list nat) :=
  set_base [5; 6]
    (set_tasks (Some double :: None :: Some append_to_log :: replicate 7 None)
       (fresh nat [])).

(** A queue whose worker has returned from [thread_work]: what a call to
    [stop] needs in order to return.  The worker gets there when its first
    loop test read the flag before line 37 initialised it. *)
Definition exited_queue : proqueue nat (list nat) :=
  set_wpc Exited logged_queue.

(** The scenario of the header comment and of the spec: the worker sleeps,
    0..4 are pushed, [stop] notifies, the worker runs until it blocks. *)
Definition five_then_stop : list (label nat (list nat)) :=
  replicate 3 worker ++ (call_push <$> [0; 1; 2; 3; 4]) ++
  [call_stop_notify] ++ replicate 21 worker.

(** Another thread calls [push(1)] and then [pop()]; the worker tests
    [state_is_ready()] after that thread has passed line 131 and before it
    runs line 132. *)
Definition pop_race : list (label nat (list nat)) :=
  [call_push 1; call_pop_lock; worker; worker; worker; call_pop_body].

(** The worker woken with the flag up and nothing stored (the state line 77
    lets through to line 78 once something raises the flag). *)
Definition woken_by_shutdown : proqueue nat (list nat) :=
  ProQueue [] (Some append_to_log :: replicate 9 None) true true Woken 0 [] [].

(** [logged_queue] when the worker made its first loop test before the flag
    was initialised and read it as set. *)
Definition raced_queue : proqueue nat (list nat) :=
  set_wpc DrainTest logged_queue.

(** A queue with two values stored whose worker starts an iteration with the
    flag up (the state the second loop of [thread_work] is written for). *)
Definition flagged_queue : proqueue nat (list nat) :=
  ProQueue [5; 6] (Some append_to_log :: replicate 9 None) true true AtLoop
           0 [] [].

Section proqueue_facts.

Context {T World : Type}.

(** ** The registry *)

Lemma count_if_le_length {A} (p : A → bool) (l : list A) :
  count_if p l ≤ length l.
Proof. induction l as [|a l IH]; simpl; [lia|]. destruct (p a); lia. Qed.

Lemma count_if_none (ts : list (function_type T World)) :
  forallb (λ f, negb (callable f)) ts = true → count_if callable ts = 0.
Proof.
  induction ts as [|[g|] ts IH]; simpl; intros H; try done.
  by apply IH.
Qed.

Lemma prefix_filled_none (ts : list (function_type T World)) :
  forallb (λ f, negb (callable f)) ts = true → prefix_filled ts = true.
Proof. destruct ts as [|[g|] ts]; simpl; done. Qed.

Lemma first_free_count (ts : list (function_type T World)) :
  prefix_filled ts = true →
  first_free ts =
    if count_if callable ts <? length ts then Some (count_if callable ts)
    else None.
Proof.
  induction ts as [|[g|] ts IH]; simpl; intros H; try done.
  - rewrite (IH H).
    change (S (count_if callable ts) <? S (length ts))
      with (count_if callable ts <? length ts).
    by destruct (count_if callable ts <? length ts).
  - by rewrite (count_if_none _ H).
Qed.

Lemma prefix_filled_put (ts : list (function_type T World))
    (f : function_type T World) :
  prefix_filled ts = true →
  prefix_filled (<[count_if callable ts := f]> ts) = true.
Proof.
  induction ts as [|[g|] ts IH]; simpl; intros H; try done.
  - by apply IH.
  - rewrite (count_if_none _ H). simpl.
    destruct f; [by apply prefix_filled_none | done].
Qed.

Lemma fresh_registry_ok (w : World) : registry_ok (fresh T w).
Proof. split; reflexivity. Qed.

Lemma tasks_at_put_registry_ok (f : function_type T World)
    (s s' : proqueue T World) :
  registry_ok s → tasks_at_put (tasks_index s) f s = Ok tt s' →
  registry_ok s'.
Proof.
  intros [Hlen Hpre]. unfold tasks_at_put.
  destruct (tasks_index s <? MAX_TASK_SIZE); [|done].
  intros [= <-]. split; simpl.
  - by rewrite length_insert.
  - by apply prefix_filled_put.
Qed.

Lemma add_callback_ok_inv (f : function_type T World)
    (s s' : proqueue T World) :
  add_callback f s = Ok tt s' →
  tasks_count s < MAX_TASK_SIZE ∧
  s' = set_tasks (<[tasks_count s := f]> (tasks s)) s.
Proof.
  unfold add_callback, tasks_at_put, tasks_index.
  destruct (tasks_count s <? MAX_TASK_SIZE) eqn:E; [|done].
  intros [= <-]. split; [|done]. by apply Nat.ltb_lt.
Qed.

Lemma add_callback_registry_ok (f : function_type T World)
    (s s' : proqueue T World) :
  registry_ok s → add_callback f s = Ok tt s' → registry_ok s'.
Proof.
  intros [Hlen Hpre] [_ ->]%add_callback_ok_inv. split; simpl.
  - by rewrite length_insert.
  - by apply prefix_filled_put.
Qed.

(** ** proc_one *)

Lemma elem_of_occupied_from (ts : list (function_type T World)) (k i : nat) :
  i ∈ occupied_from k ts ↔ ∃ j f, i = k + j ∧ ts !! j = Some (Some f).
Proof.
  revert k. induction ts as [|[g|] ts IH]; intros k; simpl.
  - split; [by intros ?%elem_of_nil | by intros (j & f & _ & ?)].
  - rewrite elem_of_cons, IH. split.
    + intros [->|(j & f & -> & H)].
      * exists 0, g. split; [lia|done].
      * exists (S j), f. split; [lia|done].
    + intros ([|j] & f & -> & H); [left; lia|].
      right. exists j, f. split; [lia|done].
  - rewrite IH. split.
    + intros (j & f & -> & H). exists (S j), f. split; [lia|done].
    + intros ([|j] & f & -> & H); [done|].
      exists j, f. split; [lia|done].
Qed.

Lemma occupied_from_sorted (ts : list (function_type T World)) (k : nat) :
  StronglySorted lt (occupied_from k ts).
Proof.
  revert k. induction ts as [|[g|] ts IH]; intros k; simpl.
  - constructor.
  - constructor; [apply IH|]. apply Forall_forall.
    intros i (j & f & -> & _)%elem_of_occupied_from. lia.
  - apply IH.
Qed.

Lemma invoke_frame (slot : nat) (g : callback T World) (s : proqueue T World) :
  tasks (invoke slot g s) = tasks s ∧
  shutdown_required (invoke slot g s) = shutdown_required s ∧
  joinable (invoke slot g s) = joinable s ∧
  wpc (invoke slot g s) = wpc s ∧
  pop_passed (invoke slot g s) = pop_passed s.
Proof.
  unfold invoke. destruct (base s) as [|t rest]; [done|].
  by destruct (g t (world s)).
Qed.

Lemma run_tasks_frame (ts : list (function_type T World)) (slot : nat)
    (s : proqueue T World) :
  tasks (run_tasks ts slot s) = tasks s ∧
  shutdown_required (run_tasks ts slot s) = shutdown_required s ∧
  joinable (run_tasks ts slot s) = joinable s ∧
  wpc (run_tasks ts slot s) = wpc s ∧
  pop_passed (run_tasks ts slot s) = pop_passed s.
Proof.
  revert slot s. induction ts as [|[g|] ts IH]; intros slot s; simpl.
  - done.
  - destruct (IH (S slot) (invoke slot g s)) as (-> & -> & -> & -> & ->).
    apply invoke_frame.
  - apply IH.
Qed.

Lemma run_tasks_spec (ts : list (function_type T World)) (slot : nat)
    (s : proqueue T World) (t : T) (rest : list T) :
  base s = t :: rest →
  ∃ t' evs,
    base (run_tasks ts slot s) = t' :: rest ∧
    calls (run_tasks ts slot s) = calls s ++ evs ∧
    ev_slot <$> evs = occupied_from slot ts ∧
    Forall (λ e, ev_stored e = ev_arg e :: rest) evs ∧
    handed_on t evs t'.
Proof.
  revert slot s t. induction ts as [|[g|] ts IH]; intros slot s t Hb; simpl.
  - exists t, []. by rewrite app_nil_r.
  - destruct (g t (world s)) as [t1 w1] eqn:Eg.
    assert (invoke slot g s =
            ProQueue (t1 :: rest) (tasks s) (shutdown_required s)
              (joinable s) (wpc s) (pop_passed s) w1
              (calls s ++ [Event slot t t1 (t :: rest)])) as Hi.
    { unfold invoke. rewrite Hb, Eg. done. }
    destruct (IH (S slot) (invoke slot g s) t1) as
      (t' & evs & H1 & H2 & H3 & H4 & H5); [by rewrite Hi|].
    exists t', (Event slot t t1 (t :: rest) :: evs).
    rewrite H1, H2, Hi. simpl. rewrite <- app_assoc. simpl.
    repeat split; try done.
    + by rewrite <- H3.
    + by constructor.
  - apply IH. done.
Qed.

Lemma proc_one_nonempty (s : proqueue T World) (t : T) (rest : list T) :
  base s = t :: rest →
  proc_one s = Ok tt (set_base rest (run_tasks (tasks s) 0 s)).
Proof.
  intros Hb. unfold proc_one, mbind, M_bind, front, for_each_task.
  rewrite Hb. unfold pop, queue_pop.
  destruct (run_tasks_spec (tasks s) 0 s t rest Hb) as (t' & evs & -> & _).
  done.
Qed.

Lemma proc_one_empty (s : proqueue T World) :
  base s = [] → proc_one s = Undefined.
Proof.
  intros Hb. unfold proc_one, mbind, M_bind, front. by rewrite Hb.
Qed.

Lemma run_tasks_invoked (pre ts : list (function_type T World))
    (s : proqueue T World) (t : T) (rest : list T) :
  base s = t :: rest →
  ∃ t' evs,
    base (run_tasks ts (length pre) s) = t' :: rest ∧
    calls (run_tasks ts (length pre) s) = calls s ++ evs ∧
    invoked (pre ++ ts) evs t (world s) t'
      (world (run_tasks ts (length pre) s)).
Proof.
  revert pre s t. induction ts as [|[g|] ts IH]; intros pre s t Hb; simpl.
  - exists t, []. by rewrite app_nil_r.
  - destruct (g t (world s)) as [t1 w1] eqn:Eg.
    assert (invoke (length pre) g s =
            ProQueue (t1 :: rest) (tasks s) (shutdown_required s)
              (joinable s) (wpc s) (pop_passed s) w1
              (calls s ++ [Event (length pre) t t1 (t :: rest)])) as Hi.
    { unfold invoke. rewrite Hb, Eg. done. }
    destruct (IH (pre ++ [Some g]) (invoke (length pre) g s) t1) as
      (t' & evs & H1 & H2 & H3); [by rewrite Hi|].
    rewrite length_app in H1, H2, H3. simpl in H1, H2, H3.
    rewrite Nat.add_1_r in H1, H2, H3. rewrite <- app_assoc in H3.
    exists t', (Event (length pre) t t1 (t :: rest) :: evs).
    rewrite H1, H2, Hi. simpl. rewrite <- app_assoc. simpl.
    split; [done|]. split; [done|]. exists g, w1.
    rewrite list_lookup_middle by done.
    rewrite Hi in H3. simpl in H3. done.
  - destruct (IH (pre ++ [None]) s t Hb) as (t' & evs & H1 & H2 & H3).
    rewrite length_app in H1, H2, H3. simpl in H1, H2, H3.
    rewrite Nat.add_1_r in H1, H2, H3. rewrite <- app_assoc in H3.
    by exists t', evs.
Qed.

(** C9: [proc_one] on a queue whose front is [t] returns normally; it invokes
    the callback of every occupied slot, and of no other, once each and lowest
    slot first; each invocation is the callback stored in that slot, applied
    to the value its predecessor left behind the reference (the first one to
    [t]) and to the captured state its predecessor left, and what the last
    one leaves is the captured state afterwards; at every invocation the
    value is still at the front of the stored sequence; only then is the
    front removed, and nothing else of the object changes. *)
Theorem proc_one_invokes_in_slot_order_then_pops
    (s : proqueue T World) (t : T) (rest : list T) :
  base s = t :: rest →
  ∃ s' evs t',
    proc_one s = Ok tt s' ∧
    calls s' = calls s ++ evs ∧
    ev_slot <$> evs = occupied_from 0 (tasks s) ∧
    StronglySorted lt (ev_slot <$> evs) ∧
    (∀ i, i ∈ ev_slot <$> evs ↔ ∃ f, tasks s !! i = Some (Some f)) ∧
    handed_on t evs t' ∧
    invoked (tasks s) evs t (world s) t' (world s') ∧
    Forall (λ e, ev_stored e = ev_arg e :: rest) evs ∧
    base s' = rest ∧
    tasks s' = tasks s ∧ shutdown_required s' = shutdown_required s ∧
    joinable s' = joinable s ∧ wpc s' = wpc s.
Proof.
  intros Hb.
  destruct (run_tasks_spec (tasks s) 0 s t rest Hb) as
    (t' & evs & H1 & H2 & H3 & H4 & H5).
  destruct (run_tasks_invoked [] (tasks s) s t rest Hb) as
    (t2 & evs2 & G1 & G2 & G3).
  simpl in G1, G2, G3.
  assert (t2 = t') as -> by congruence.
  assert (evs2 = evs) as ->.
  { rewrite H2 in G2. by apply app_inv_head in G2. }
  destruct (run_tasks_frame (tasks s) 0 s) as (F1 & F2 & F3 & F4 & _).
  exists (set_base rest (run_tasks (tasks s) 0 s)), evs, t'.
  rewrite (proc_one_nonempty s t rest Hb). simpl.
  repeat split; try done.
  - rewrite H3. apply occupied_from_sorted.
  - rewrite H3. intros (j & f & -> & H)%elem_of_occupied_from. by exists f.
  - rewrite H3. intros [f H]. apply elem_of_occupied_from. by exists i, f.
Qed.

Lemma first_free_lookup (ts : list (function_type T World)) (i : nat) :
  first_free ts = Some i → ts !! i = Some None.
Proof.
  revert i. induction ts as [|[g|] ts IH]; intros i; simpl; try done.
  - destruct (first_free ts) as [k|]; simpl; [|done].
    intros [= <-]. by apply IH.
  - by intros [= <-].
Qed.

(** C4 (what line 117 fixes): whatever index the ill-formed [tasks()] is
    meant to yield, [tasks.at(index) = callback] inside the [try] block either
    writes [callback] into that one slot and returns normally (index below
    10), or leaves by [std::out_of_range] ("Size of tasks exceeds
    MAX_TASK_SIZE") with the whole object as it was (index 10 or more).
    Which slot that is, and so whether it is the lowest empty one, no code
    says. *)
Theorem add_callback_at_any_index
    (index : proqueue T World → nat) (f : function_type T World)
    (s : proqueue T World) :
  (index s < MAX_TASK_SIZE →
     add_callback_at index f s
       = Ok tt (set_tasks (<[index s := f]> (tasks s)) s)) ∧
  (MAX_TASK_SIZE ≤ index s →
     add_callback_at index f s
       = Throw (out_of_range "Size of tasks exceeds MAX_TASK_SIZE") s) ∧
  (∀ s', add_callback_at index f s = Ok tt s' →
     ∀ i, first_free (tasks s) = Some i → index s ≠ i →
          tasks s' !! i = Some None).
Proof.
  unfold add_callback_at, tasks_at_put. split; [|split].
  - intros H. apply Nat.ltb_lt in H. by rewrite H.
  - intros H. apply Nat.ltb_ge in H. by rewrite H.
  - destruct (index s <? MAX_TASK_SIZE); [|done].
    intros s' [= <-] i Hfree Hi. simpl.
    rewrite list_lookup_insert_ne by done. by apply first_free_lookup.
Qed.

(** The model's [add_callback] is line 117 read with [tasks_count()]. *)
Lemma add_callback_is_at (f : function_type T World) (s : proqueue T World) :
  add_callback f s = add_callback_at tasks_index f s.
Proof. reflexivity. Qed.

(** Under the reading [tasks() = tasks_count()], on a well-formed registry:
    [add_callback f] with fewer than 10 occupied slots returns normally and
    writes [f] into the lowest-index empty slot, changing nothing else; with
    all 10 slots occupied there is no empty slot and the call leaves by
    [std::out_of_range] with the whole object as it was. *)
Theorem add_callback_next_free_or_capacity
    (s : proqueue T World) (f : function_type T World) :
  registry_ok s →
  tasks_count s ≤ MAX_TASK_SIZE ∧
  (tasks_count s < MAX_TASK_SIZE →
     ∃ i, first_free (tasks s) = Some i ∧ tasks s !! i = Some None ∧
          (∀ j, j < i → ∃ g, tasks s !! j = Some (Some g)) ∧
          add_callback f s = Ok tt (set_tasks (<[i := f]> (tasks s)) s) ∧
          <[i := f]> (tasks s) !! i = Some f) ∧
  (tasks_count s = MAX_TASK_SIZE →
     first_free (tasks s) = None ∧
     add_callback f s =
       Throw (out_of_range "Size of tasks exceeds MAX_TASK_SIZE") s).
Proof.
  intros [Hlen Hpre].
  pose proof (count_if_le_length callable (tasks s)) as Hle.
  pose proof (first_free_count _ Hpre) as Hff.
  unfold tasks_count in *. rewrite Hlen in Hle, Hff.
  split; [done|]. split.
  - intros Hlt.
    assert ((count_if callable (tasks s) <? MAX_TASK_SIZE) = true) as E.
    { by apply Nat.ltb_lt. }
    rewrite E in Hff.
    exists (count_if callable (tasks s)). split; [done|].
    assert (∀ ts : list (function_type T World), prefix_filled ts = true →
              count_if callable ts < length ts →
              ts !! count_if callable ts = Some None ∧
              ∀ j, j < count_if callable ts →
                   ∃ g, ts !! j = Some (Some g)) as Hslot.
    { clear. induction ts as [|[g|] ts IH]; simpl; intros Hp Hl; [lia| |].
      - destruct (IH Hp ltac:(lia)) as [H1 H2]. split; [done|].
        intros [|j] Hj; simpl; [by eexists|]. apply H2. lia.
      - rewrite (count_if_none _ Hp). split; [done|]. intros j Hj. lia. }
    destruct (Hslot _ Hpre ltac:(lia)) as [H1 H2].
    repeat split; try done.
    + unfold add_callback, tasks_at_put, tasks_index, tasks_count.
      by rewrite E.
    + apply list_lookup_insert_eq. lia.
  - intros Heq.
    assert ((count_if callable (tasks s) <? MAX_TASK_SIZE) = false) as E.
    { apply Nat.ltb_ge. lia. }
    rewrite E in Hff. split; [done|].
    unfold add_callback, tasks_at_put, tasks_index, tasks_count.
    by rewrite E.
Qed.

(** C10: [push] changes the value sequence and nothing else (registry,
    shutdown flag, thread handle and worker are as before), on every queue;
    an [add_callback] that returns normally changes the one slot it writes
    and nothing else (value sequence, shutdown flag, every other slot, the
    number of slots), whatever index [tasks()] is meant to yield. *)
Theorem push_and_add_callback_frame (s : proqueue T World) (t : T) :
  (push t s = set_base (base s ++ [t]) s ∧
   tasks (push t s) = tasks s ∧
   shutdown_required (push t s) = shutdown_required s) ∧
  (∀ (index : proqueue T World → nat) (f : function_type T World)
     (s' : proqueue T World),
     add_callback_at index f s = Ok tt s' →
     base s' = base s ∧
     shutdown_required s' = shutdown_required s ∧
     s' = set_tasks (tasks s') s ∧
     length (tasks s') = length (tasks s) ∧
     ∀ j, j ≠ index s → tasks s' !! j = tasks s !! j).
Proof.
  split; [done|]. intros index f s'. unfold add_callback_at, tasks_at_put.
  destruct (index s <? MAX_TASK_SIZE); [|done]. intros [= <-]. simpl.
  repeat split; try done.
  - by rewrite length_insert.
  - intros j Hj. by apply list_lookup_insert_ne.
Qed.

Lemma construct_eq
    (w : World) (func : function_type T World) (remaining : list
    (function_type T World)) :
  construct w func remaining =
    Ok tt (set_tasks (func :: replicate 9 None) (fresh T w)).
Proof. reflexivity. Qed.

(** C5 (what the code does): the constructor stores its first argument in
    slot 0 and nothing else, whatever it is handed in [remaining], and returns
    normally however many callbacks that is. *)
Theorem construct_registers_first_only
    (w : World) (func : function_type T World) (remaining : list
    (function_type T World)) :
  ∃ s, construct w func remaining = Ok tt s ∧
       tasks s = func :: replicate 9 None ∧
       tasks_count s = (if callable func then 1 else 0) ∧
       construct w func remaining = construct w func [].
Proof.
  eexists. split; [apply construct_eq|]. simpl.
  repeat split. unfold tasks_count. simpl. destruct (callable func); done.
Qed.

(** C6 (amended): on an empty sequence [pop], [front] and [back] check
    nothing and raise nothing; they are the calls of [std::queue] on an empty
    container, whose behaviour is undefined. *)
Theorem empty_access_is_undefined (s : proqueue T World) :
  empty s = true →
  pop s = Undefined ∧ front s = Undefined ∧ back s = Undefined ∧
  ∀ e, ¬ fails_with (pop s) e ∧ ¬ fails_with (front s) e
       ∧ ¬ fails_with (back s) e.
Proof.
  unfold empty, pop, queue_pop, front, back, fails_with.
  destruct (base s) as [|t rest]; [|done]. intros _. simpl.
  repeat split; try done; intros [s' H]; discriminate H.
Qed.

(** ** Invariants of the interleavings *)

Lemma proc_one_frame (s s' : proqueue T World) :
  proc_one s = Ok tt s' →
  tasks s' = tasks s ∧
  shutdown_required s' = shutdown_required s ∧
  joinable s' = joinable s ∧
  wpc s' = wpc s ∧
  pop_passed s' = pop_passed s.
Proof.
  destruct (base s) as [|t rest] eqn:Hb.
  - by rewrite (proc_one_empty s Hb).
  - rewrite (proc_one_nonempty s t rest Hb). intros [= <-]. simpl.
    apply run_tasks_frame.
Qed.

Lemma construct_live
    (w : World) (func : function_type T World) (remaining : list
    (function_type T World))
    (s0 : proqueue T World) :
  construct w func remaining = Ok tt s0 → live s0.
Proof. rewrite construct_eq. by intros [= <-]. Qed.

Lemma step_live (l : label T World) (s : proqueue T World) (u : unit)
    (s' : proqueue T World) :
  live s → step l s = Some (Ok u s') → live s'.
Proof.
  intros (Hf & Hj & Hpc). unfold live. destruct l; simpl.
  - by intros [= _ <-].
  - destruct (worker_holds_lock (wpc s)); [done|].
    destruct u. by intros [= [_ ->]%add_callback_ok_inv].
  - destruct (worker_holds_lock (wpc s)); [done|]. by intros [= _ <-].
  - destruct (pop_passed s) as [|n]; [done|]. unfold queue_pop. simpl.
    destruct (base s); [done|]. by intros [= _ <-].
  - intros [= _ <-]. unfold notify_one. case_pc s; done.
  - unfold stop_join, thread_join. rewrite Hj. case_pc s; done.
  - case_pc s; try done. by intros [= _ <-].
  - unfold thread_work_step, goto.
    destruct (wpc s) eqn:Epc; try done; rewrite ?Hf;
      try (by intros [= _ <-]).
    + destruct (state_is_ready s); [by intros [= _ <-]|].
      destruct (wait_pred s); by intros [= _ <-].
    + destruct (wait_pred s); by intros [= _ <-].
    + destruct (proc_one s) as [[] s1| | |] eqn:Ep; simpl; try done.
      unfold goto. intros [= _ <-]. simpl.
      destruct (proc_one_frame _ _ Ep) as (_ & -> & -> & _). done.
Qed.

Lemma step_registry_ok (l : label T World) (s : proqueue T World) (u : unit)
    (s' : proqueue T World) :
  registry_ok s → step l s = Some (Ok u s') → registry_ok s'.
Proof.
  intros Hok. destruct l; simpl.
  - by intros [= _ <-].
  - destruct (worker_holds_lock (wpc s)); [done|]. destruct u.
    intros [= H]. by eapply add_callback_registry_ok.
  - destruct (worker_holds_lock (wpc s)); [done|]. by intros [= _ <-].
  - destruct (pop_passed s) as [|n]; [done|]. unfold queue_pop. simpl.
    destruct (base s); [done|]. by intros [= _ <-].
  - intros [= _ <-]. unfold notify_one. by destruct (wpc s).
  - unfold stop_join, thread_join. destruct (joinable s); [|done].
    destruct (wpc s); try done. by intros [= _ <-].
  - destruct (wpc s); try done. by intros [= _ <-].
  - assert (∀ pc r, then_goto pc r = Some (Ok u s') →
              ∃ s1, r = Ok tt s1 ∧ s' = set_wpc pc s1) as Hthen.
    { intros pc [[] s1| | |]; simpl; try done. unfold goto.
      intros [= _ <-]. by eexists. }
    unfold thread_work_step, goto. destruct (wpc s); try done;
      try (by intros [= _ <-]).
    + destruct (shutdown_required s); by intros [= _ <-].
    + destruct (state_is_ready s); [by intros [= _ <-]|].
      destruct (wait_pred s); by intros [= _ <-].
    + destruct (wait_pred s); by intros [= _ <-].
    + intros (s1 & Hp & ->)%Hthen. unfold registry_ok in *. simpl.
      by destruct (proc_one_frame _ _ Hp) as (-> & _).
    + destruct (empty s); by intros [= _ <-].
    + intros (s1 & Hp & ->)%Hthen. unfold registry_ok in *. simpl.
      by destruct (proc_one_frame _ _ Hp) as (-> & _).
Qed.

(** Under the reading [tasks() = tasks_count()]: every registry an
    interleaving produces is well formed, ten slots with the occupied ones
    first. *)
Lemma run_registry_ok (w : World) (func : function_type T World)
    (remaining : list (function_type T World))
    (ls : list (label T World)) (u : unit) (s0 s : proqueue T World) :
  construct w func remaining = Ok tt s0 → run ls s0 = Some (Ok u s) →
  registry_ok s.
Proof.
  intros Hc. assert (registry_ok s0) as H0.
  { unfold construct in Hc.
    eapply tasks_at_put_registry_ok; [apply fresh_registry_ok|exact Hc]. }
  clear Hc. revert s0 H0. induction ls as [|l ls IH]; intros s0 H0; simpl.
  - by intros [= _ <-].
  - destruct (step l s0) as [[u1 s1| | |]|] eqn:Es; try done.
    apply IH. by eapply step_registry_ok.
Qed.

Lemma run_live (ls : list (label T World)) (s : proqueue T World) (u : unit)
    (s' : proqueue T World) :
  live s → run ls s = Some (Ok u s') → live s'.
Proof.
  revert s. induction ls as [|l ls IH]; intros s Hl; simpl.
  - by intros [= _ <-].
  - destruct (step l s) as [[u1 s1| | |]|] eqn:Es; try done.
    apply IH. by eapply step_live.
Qed.

Lemma live_join_blocks (s : proqueue T World) :
  live s → stop_join s = None ∧ stop s = None.
Proof.
  intros (Hf & Hj & Hpc).
  unfold stop, notify_one, stop_join, thread_join.
  destruct (wpc s) eqn:Epc; simpl; rewrite ?Epc, Hj; simpl; done.
Qed.

(** C1 (what the code does): along every interleaving of calls to [push],
    [add_callback], [pop] and [stop] with steps of the worker, started on a
    constructed queue, [shutdown_required] is [false]: no member function,
    [stop] included, ever writes it. *)
Theorem shutdown_required_never_set
    (w : World) (func : function_type T World) (remaining : list
    (function_type T World))
    (s0 s : proqueue T World) (ls : list (label T World)) :
  construct w func remaining = Ok tt s0 →
  run ls s0 = Some (Ok tt s) →
  shutdown_required s0 = false ∧ shutdown_required s = false ∧
  shutdown_required (notify_one s) = false.
Proof.
  intros Hc Hr. pose proof (construct_live _ _ _ _ Hc) as Hl0.
  pose proof (run_live _ _ _ _ Hl0 Hr) as Hl.
  destruct Hl0 as (H0 & _). destruct Hl as (H & _).
  repeat split; try done. unfold notify_one. by destruct (wpc s).
Qed.

(** When the worker's first loop test reads the initialised flag (the object
    of [construct]): after any interleaving of [step] the worker is still
    inside its first loop and the thread handle is still joinable, so
    [thread.join()] on line 126 blocks. *)
Theorem stop_never_returns
    (w : World) (func : function_type T World) (remaining : list
    (function_type T World))
    (s0 s : proqueue T World) (ls : list (label T World)) :
  construct w func remaining = Ok tt s0 →
  run ls s0 = Some (Ok tt s) →
  in_first_loop (wpc s) = true ∧ joinable s = true ∧
  step call_stop_join s = None ∧ stop s = None ∧
  run (ls ++ [call_stop_join]) s0 = None.
Proof.
  intros Hc Hr. pose proof (construct_live _ _ _ _ Hc) as Hl0.
  pose proof (run_live _ _ _ _ Hl0 Hr) as Hl.
  destruct (live_join_blocks _ Hl) as [Hj Hs].
  destruct Hl as (_ & ? & ?). repeat split; try done.
  clear Hc Hl0. revert s0 Hr. induction ls as [|l ls IH]; intros s0; simpl.
  - intros [= ->]. by rewrite Hj.
  - destruct (step l s0) as [[u1 s1| | |]|]; try done. apply IH.
Qed.

Lemma unjoinable_stop_terminates (s : proqueue T World) :
  joinable s = false → stop s = Some Terminate.
Proof.
  intros Hj. unfold stop, stop_join, thread_join, notify_one.
  case_pc s; rewrite Hj; done.
Qed.

(** C3 (what the code does): [push] is the append and nothing more.  It can
    always run, whether or not the worker holds the lock, and it leaves a
    worker that is blocked in [condition.wait] blocked: the worker cannot take
    a step after the push, and the value stays in the queue. *)
Theorem push_neither_locks_nor_notifies (s : proqueue T World) (t : T) :
  wpc s = Waiting →
  (∀ s1 : proqueue T World,
     step (call_push t) s1 = Some (Ok tt (push t s1))) ∧
  base (push t s) = base s ++ [t] ∧
  wpc (push t s) = Waiting ∧
  wpc (notify_one (push t s)) = Woken ∧
  step worker (push t s) = None.
Proof.
  intros Hpc. repeat split; simpl; try done.
  - unfold notify_one. simpl. by rewrite Hpc.
  - unfold thread_work_step. simpl. by rewrite Hpc.
Qed.

(** C8 (what the code does): [stop] has no guard on the thread handle.  If a
    call to [stop] returns, the handle is no longer joinable, and the next
    call to [stop], or the destructor, has [thread.join()] throw inside a
    [noexcept] function: the process is terminated. *)
Theorem second_stop_terminates (s s' : proqueue T World) :
  stop s = Some (Ok tt s') →
  joinable s' = false ∧
  stop s' = Some Terminate ∧ destroy s' = Some Terminate.
Proof.
  intros Hs.
  assert (joinable s' = false) as Hj.
  { revert Hs. unfold stop, stop_join, thread_join.
    destruct (joinable (notify_one s)); [|done].
    destruct (wpc (notify_one s)); try done. by intros [= <-]. }
  split; [done|]. unfold destroy. by rewrite unjoinable_stop_terminates.
Qed.

(** ** Programs that only push and stop

    In the interleavings of [step], from a queue whose worker runs its first
    loop with the flag down: with [pop] left to the worker, the worker calls
    [proc_one] on a non-empty queue only. *)

Lemma step_producer_safe (l : label T World) (s : proqueue T World)
    (r : outcome T World unit) :
  producer_label l = true → live s → proc_guarded s →
  step l s = Some r → ∃ s', r = Ok tt s' ∧ proc_guarded s'.
Proof.
  intros Hl (Hf & Hj & Hpc) Hg. unfold proc_guarded in *.
  destruct l; simpl in *; try done.
  - intros [= <-]. eexists. split; [done|]. simpl. intros Hp.
    specialize (Hg Hp). by destruct (base s).
  - intros [= <-]. eexists. split; [done|].
    unfold notify_one. case_pc s; done.
  - unfold stop_join, thread_join. rewrite Hj. case_pc s; done.
  - case_pc s; try done. intros [= <-]. by eexists.
  - unfold thread_work_step, goto, state_is_ready, wait_pred, empty.
    rewrite Hf. case_pc s; try done.
    + intros [= <-]. by eexists.
    + intros [= <-]. by eexists.
    + destruct (base s) eqn:Hb; simpl; intros [= <-];
        (eexists; split; [done|]); simpl; [done|by rewrite Hb].
    + destruct (base s) eqn:Hb; simpl; intros [= <-];
        (eexists; split; [done|]); simpl; [done|by rewrite Hb].
    + destruct (base s) as [|t rest] eqn:Hb; [by destruct Hg|].
      rewrite (proc_one_nonempty s t rest Hb). simpl. unfold goto.
      intros [= <-]. by eexists.
Qed.

Lemma run_producer_safe (ls : list (label T World)) (s : proqueue T World)
    (r : outcome T World unit) :
  forallb producer_label ls = true → live s → proc_guarded s →
  run ls s = Some r → ∃ s', r = Ok tt s' ∧ live s' ∧ proc_guarded s'.
Proof.
  revert s. induction ls as [|l ls IH]; intros s Hls Hl Hg; simpl.
  - intros [= <-]. by eexists.
  - simpl in Hls. apply andb_prop in Hls as [Hl1 Hls].
    destruct (step l s) as [r1|] eqn:Es; [|done].
    destruct (step_producer_safe l s r1 Hl1 Hl Hg Es) as (s1 & -> & Hg1).
    apply IH; try done. by eapply step_live.
Qed.

(** ** A worker that left before anything was pushed *)

Lemma run_app (ls1 ls2 : list (label T World)) (s : proqueue T World) :
  run (ls1 ++ ls2) s =
    match run ls1 s with
    | Some (Ok _ s') => run ls2 s'
    | r => r
    end.
Proof.
  revert s. induction ls1 as [|l ls1 IH]; intros s; simpl; [done|].
  destruct (step l s) as [[u s1| | |]|]; done.
Qed.

Lemma run_pushes (ts : list T) (s : proqueue T World) :
  run (call_push <$> ts) s = Some (Ok tt (set_base (base s ++ ts) s)).
Proof.
  revert s. induction ts as [|t ts IH]; intros s; simpl.
  - rewrite app_nil_r. by destruct s.
  - rewrite IH. unfold push, queue_push, set_base. simpl.
    by rewrite <- app_assoc.
Qed.

Lemma pushed_app (ls1 ls2 : list (label T World)) :
  pushed (ls1 ++ ls2) = pushed ls1 ++ pushed ls2.
Proof.
  induction ls1 as [|l ls1 IH]; simpl; [done|].
  destruct l; simpl; by rewrite ?IH.
Qed.

Lemma pushed_pushes (ts : list T) :
  pushed (call_push (World:=World) <$> ts) = ts.
Proof. induction ts as [|t ts IH]; simpl; [done|]. f_equal. exact IH. Qed.

(** C2 (what the code does): [stop] can return with the pushed values never
    handed to the callback.  When the worker made its first loop test before
    line 37 initialised the flag and read it as set, it finds the queue empty
    on line 82 and returns from [thread_work]; the values pushed afterwards
    stay in the queue, [thread.join()] finds the thread finished and [stop]
    returns, with the captured state (the log) as it was at construction and
    no callback ever invoked. *)
Theorem stop_returns_with_values_unprocessed
    (w0 : World) (func : function_type T World)
    (remaining : list (function_type T World)) (ts : list T)
    (s0 : proqueue T World) :
  construct_raced w0 func remaining = Ok tt s0 →
  ∃ s,
    run (worker :: (call_push <$> ts) ++ [call_stop_notify; call_stop_join])
        s0 = Some (Ok tt s) ∧
    pushed (worker :: (call_push (World:=World) <$> ts)
              ++ [call_stop_notify; call_stop_join]) = ts ∧
    wpc s = Exited ∧ joinable s = false ∧ shutdown_required s = false ∧
    world s = w0 ∧ calls s = [] ∧ base s = ts.
Proof.
  unfold construct_raced. rewrite construct_eq. intros [= <-].
  eexists. split.
  - simpl. rewrite run_app, run_pushes. simpl. reflexivity.
  - simpl. rewrite pushed_app, pushed_pushes. simpl.
    by rewrite app_nil_r.
Qed.

End proqueue_facts.

(** ** The log of a queue constructed with [append_to_log] *)

Section log_facts.

Context {T : Type}.

Lemma proc_one_logs (s : proqueue T (list T)) (t : T) (rest : list T) :
  logs_only s → base s = t :: rest →
  ∃ s', proc_one s = Ok tt s' ∧ logs_only s' ∧ wpc s' = wpc s ∧
        world s' = world s ++ [t] ∧ base s' = rest.
Proof.
  intros Hlog Hb. rewrite (proc_one_nonempty s t rest Hb).
  eexists. split; [done|]. unfold logs_only in *. rewrite Hlog. simpl.
  unfold invoke. rewrite Hb. simpl. done.
Qed.

End log_facts.

(** ** The concrete queues *)

Lemma logged_queue_constructed (remaining : list (function_type nat
    (list nat))) :
  construct [] (Some append_to_log) remaining = Ok tt logged_queue.
Proof. reflexivity. Qed.

Lemma worker_goes_to_sleep :
  run (replicate 3 worker) logged_queue = Some (Ok tt waiting_queue).
Proof. reflexivity. Qed.

(** The scenario "push 0,1,2,3,4; stop()": the five values are logged in
    order, the queue is empty, the worker is back in [condition.wait]. *)
Lemma five_then_stop_logs :
  ∃ s, run five_then_stop logged_queue = Some (Ok tt s) ∧
       world s = [0; 1; 2; 3; 4] ∧ base s = [] ∧ wpc s = Waiting.
Proof. eexists. split; [vm_compute; reflexivity|]. done. Qed.

(** Line 77 lets a worker woken by the flag through to line 78 with nothing
    stored: [front()] on an empty queue. *)
Lemma shutdown_wake_reaches_proc_one_on_empty :
  empty woken_by_shutdown = true ∧
  wait_pred woken_by_shutdown = true ∧
  step worker woken_by_shutdown
    = Some (Ok tt (set_wpc AtProc woken_by_shutdown)) ∧
  run [worker; worker] woken_by_shutdown = Some Undefined.
Proof. repeat split. Qed.

(** C7 (what the code does): with another thread calling [push(1)] and then
    [pop()], the worker finds the queue non-empty on line 77, that thread runs
    line 132 without the lock, and the worker, holding the lock, reaches
    [proc_one] with nothing stored: its [front()] is undefined behaviour. *)
Theorem worker_calls_proc_one_on_empty_queue :
  ∃ s, run pop_race logged_queue = Some (Ok tt s) ∧
       wpc s = AtProc ∧ worker_holds_lock (wpc s) = true ∧
       shutdown_required s = false ∧ base s = [] ∧
       proc_one s = Undefined ∧
       step worker s = Some Undefined ∧
       run (pop_race ++ [worker]) logged_queue = Some Undefined.
Proof. eexists. split; [vm_compute; reflexivity|]. repeat split. Qed.

(** C6, counterexample: on the empty queue [logged_queue] none of [pop],
    [front], [back] leaves by an exception, whatever the exception. *)
Lemma empty_access_raises_no_error :
  empty logged_queue = true ∧
  (¬ ∃ e, fails_with (pop logged_queue) e) ∧
  (¬ ∃ e, fails_with (front logged_queue) e) ∧
  (¬ ∃ e, fails_with (back logged_queue) e).
Proof.
  repeat split; intros (e & s' & H); discriminate H.
Qed.

(** ** Instances *)

Lemma shutdown_required_never_set_witness :
  ∃ s, run five_then_stop logged_queue = Some (Ok tt s) ∧
       shutdown_required logged_queue = false ∧
       shutdown_required s = false ∧
       shutdown_required (notify_one s) = false.
Proof.
  eexists. split; [vm_compute; reflexivity|].
  apply (shutdown_required_never_set [] (Some append_to_log) []
           logged_queue _ five_then_stop); vm_compute; reflexivity.
Defined.

Lemma stop_returns_with_values_unprocessed_witness :
  construct_raced [] (Some append_to_log) [] = Ok tt raced_queue ∧
  ∃ s,
    run (worker :: (call_push <$> [0; 1; 2; 3; 4])
           ++ [call_stop_notify; call_stop_join]) raced_queue
      = Some (Ok tt s) ∧
    pushed (worker :: (call_push (World:=list nat) <$> [0; 1; 2; 3; 4])
              ++ [call_stop_notify; call_stop_join]) = [0; 1; 2; 3; 4] ∧
    wpc s = Exited ∧ joinable s = false ∧ shutdown_required s = false ∧
    world s = [] ∧ calls s = [] ∧ base s = [0; 1; 2; 3; 4].
Proof.
  split; [reflexivity|].
  exact (stop_returns_with_values_unprocessed [] (Some append_to_log) []
           [0; 1; 2; 3; 4] raced_queue eq_refl).
Defined.

Lemma push_neither_locks_nor_notifies_witness :
  wpc waiting_queue = Waiting ∧
  (∀ s1 : proqueue nat (list nat),
     step (call_push 7) s1 = Some (Ok tt (push 7 s1))) ∧
  base (push 7 waiting_queue) = base waiting_queue ++ [7] ∧
  wpc (push 7 waiting_queue) = Waiting ∧
  wpc (notify_one (push 7 waiting_queue)) = Woken ∧
  step worker (push 7 waiting_queue) = None.
Proof.
  split; [reflexivity|].
  apply (push_neither_locks_nor_notifies waiting_queue 7). reflexivity.
Defined.

Lemma empty_access_is_undefined_witness :
  empty logged_queue = true ∧
  pop logged_queue = Undefined ∧ front logged_queue = Undefined ∧
  back logged_queue = Undefined ∧
  ∀ e, ¬ fails_with (pop logged_queue) e ∧
       ¬ fails_with (front logged_queue) e ∧
       ¬ fails_with (back logged_queue) e.
Proof.
  split; [reflexivity|].
  apply (empty_access_is_undefined logged_queue). reflexivity.
Defined.

Lemma second_stop_terminates_witness :
  stop exited_queue = Some (Ok tt (set_joinable false exited_queue)) ∧
  joinable (set_joinable false exited_queue) = false ∧
  stop (set_joinable false exited_queue) = Some Terminate ∧
  destroy (set_joinable false exited_queue) = Some Terminate.
Proof.
  split; [reflexivity|].
  apply (second_stop_terminates exited_queue). reflexivity.
Defined.

Lemma proc_one_invokes_in_slot_order_then_pops_witness :
  base two_task_queue = [5; 6] ∧
  ∃ s' evs t',
    proc_one two_task_queue = Ok tt s' ∧
    calls s' = calls two_task_queue ++ evs ∧
    ev_slot <$> evs = occupied_from 0 (tasks two_task_queue) ∧
    StronglySorted lt (ev_slot <$> evs) ∧
    (∀ i, i ∈ ev_slot <$> evs ↔
          ∃ f, tasks two_task_queue !! i = Some (Some f)) ∧
    handed_on 5 evs t' ∧
    invoked (tasks two_task_queue) evs 5 (world two_task_queue) t'
      (world s') ∧
    Forall (λ e, ev_stored e = ev_arg e :: [6]) evs ∧
    base s' = [6] ∧
    tasks s' = tasks two_task_queue ∧
    shutdown_required s' = shutdown_required two_task_queue ∧
    joinable s' = joinable two_task_queue ∧ wpc s' = wpc two_task_queue.
Proof.
  split; [reflexivity|].
  apply (proc_one_invokes_in_slot_order_then_pops two_task_queue 5 [6]).
  reflexivity.
Defined.

(** What that instance computes: slot 0 doubles 5, slot 1 is skipped, slot 2
    logs the 10 it finds behind the reference, and 6 is what remains. *)
Lemma two_task_queue_run :
  ∃ s', proc_one two_task_queue = Ok tt s' ∧
        calls s' = [Event 0 5 10 [5; 6]; Event 2 10 10 [10; 6]] ∧
        world s' = [10] ∧ base s' = [6].
Proof. eexists. split; [vm_compute; reflexivity|]. done. Qed.

Lemma push_and_add_callback_frame_witness :
  let s' := set_tasks (<[1 := Some double]> (tasks logged_queue))
              logged_queue in
  (push 7 full_queue = set_base (base full_queue ++ [7]) full_queue ∧
   tasks (push 7 full_queue) = tasks full_queue ∧
   shutdown_required (push 7 full_queue) = shutdown_required full_queue) ∧
  add_callback_at tasks_index (Some double) logged_queue = Ok tt s' ∧
  (base s' = base logged_queue ∧
   shutdown_required s' = shutdown_required logged_queue ∧
   s' = set_tasks (tasks s') logged_queue ∧
   length (tasks s') = length (tasks logged_queue) ∧
   ∀ j, j ≠ tasks_index logged_queue →
        tasks s' !! j = tasks logged_queue !! j).
Proof.
  split; [exact (proj1 (push_and_add_callback_frame full_queue 7))|].
  split; [reflexivity|].
  apply (proj2 (push_and_add_callback_frame logged_queue 7) tasks_index
           (Some double)).
  reflexivity.
Defined.

(** ** More on the worker and the queue *)

Section worker_facts.

Context {T World : Type}.

Lemma invoke_set_wpc (k : nat) (g : callback T World) (pc : worker_pc)
    (s : proqueue T World) :
  invoke k g (set_wpc pc s) = set_wpc pc (invoke k g s).
Proof.
  unfold invoke. simpl. destruct (base s) as [|t rest]; [done|].
  by destruct (g t (world s)).
Qed.

Lemma run_tasks_set_wpc (ts : list (function_type T World)) (k : nat)
    (pc : worker_pc) (s : proqueue T World) :
  run_tasks ts k (set_wpc pc s) = set_wpc pc (run_tasks ts k s).
Proof.
  revert k s. induction ts as [|[g|] ts IH]; intros k s; simpl; try done.
  by rewrite invoke_set_wpc, IH.
Qed.

Lemma set_wpc_same (s : proqueue T World) (pc : worker_pc) :
  wpc s = pc → set_wpc pc s = s.
Proof. intros <-. by destruct s. Qed.

Lemma length_occupied_from (ts : list (function_type T World)) (k : nat) :
  length (occupied_from k ts) = count_if callable ts.
Proof.
  revert k. induction ts as [|[g|] ts IH]; intros k; simpl; try done.
  by rewrite IH.
Qed.

Lemma proc_one_effects (s : proqueue T World) (t : T) (rest : list T) :
  base s = t :: rest →
  ∃ s1, proc_one s = Ok tt s1 ∧ base s1 = rest ∧ tasks s1 = tasks s ∧
        shutdown_required s1 = shutdown_required s ∧
        joinable s1 = joinable s ∧ wpc s1 = wpc s ∧
        length (calls s1) = length (calls s) + tasks_count s.
Proof.
  intros Hb. rewrite (proc_one_nonempty s t rest Hb). eexists.
  split; [done|]. simpl.
  destruct (run_tasks_frame (tasks s) 0 s) as (-> & -> & -> & -> & _).
  destruct (run_tasks_spec (tasks s) 0 s t rest Hb) as
    (t' & evs & _ & -> & Hslots & _).
  repeat split. rewrite length_app. f_equal.
  by rewrite <- (length_fmap ev_slot), Hslots, length_occupied_from.
Qed.

Lemma run_worker_ok (s s1 : proqueue T World) (ls : list (label T World)) :
  thread_work_step s = Some (Ok tt s1) → run (worker :: ls) s = run ls s1.
Proof. intros H. simpl. by rewrite H. Qed.

(** X5: one iteration of the first loop of [thread_work], started with the
    flag down and no other thread in between.  On a non-empty queue it is
    exactly one [proc_one]: the front value goes through the callbacks and is
    removed, and the worker is back at the loop test.  On an empty queue the
    worker ends up blocked in [condition.wait] with the queue as it was, and
    cannot take a further step. *)
Theorem first_loop_iteration (s : proqueue T World) :
  wpc s = AtLoop → shutdown_required s = false →
  (empty s = false →
     ∃ s1, proc_one s = Ok tt s1 ∧
           run (replicate 4 worker) s = Some (Ok tt s1) ∧
           wpc s1 = AtLoop ∧ size s = S (size s1)) ∧
  (empty s = true →
     run (replicate 3 worker) s = Some (Ok tt (set_wpc Waiting s)) ∧
     run (replicate 4 worker) s = None).
Proof.
  intros Hpc Hf. unfold empty, size.
  destruct (base s) as [|t rest] eqn:Hb; (split; [|done]) || (split; [done|]);
    intros _.
  - simpl. unfold thread_work_step, state_is_ready, wait_pred, empty, goto.
    rewrite Hpc, Hf. simpl. rewrite Hb, Hf. simpl. done.
  - destruct (proc_one_effects s t rest Hb) as
      (s1 & Hp & Hb1 & _ & _ & _ & Hpc1 & _).
    exists s1. rewrite Hb1, Hpc1. repeat split; try done.
    simpl. unfold thread_work_step, state_is_ready, wait_pred, empty, goto.
    rewrite Hpc, Hf. simpl. rewrite Hb, Hf. simpl.
    rewrite (proc_one_nonempty _ t rest) by done. simpl.
    rewrite !run_tasks_set_wpc.
    rewrite (proc_one_nonempty s t rest Hb) in Hp. injection Hp as <-.
    unfold goto. do 2 f_equal. simpl in Hpc1.
    destruct (run_tasks (tasks s) 0 s). simpl in *.
    rewrite Hpc in Hpc1. by subst.
Qed.

(** X6: pushes alone never get a sleeping worker going.  With the worker
    blocked in [condition.wait], any number of pushes only lengthens the
    stored sequence, in push order; no callback runs and the worker still
    cannot take a step. *)
Theorem pushes_leave_sleeping_worker_asleep (s : proqueue T World)
    (ts : list T) :
  wpc s = Waiting →
  run (call_push <$> ts) s = Some (Ok tt (set_base (base s ++ ts) s)) ∧
  step worker (set_base (base s ++ ts) s) = None.
Proof.
  intros Hpc. split; [|simpl; unfold thread_work_step; simpl; by rewrite Hpc].
  clear Hpc. revert s. induction ts as [|t ts IH]; intros s; simpl.
  - rewrite app_nil_r. by destruct s.
  - rewrite IH. unfold push, queue_push, set_base. simpl.
    by rewrite <- app_assoc.
Qed.

(** X7: a worker that passed the loop test with the flag down, then finds
    the flag up and nothing stored when it tests the wait predicate (line
    77), goes on to [proc_one] (line 78): its [front()] on the empty queue is
    undefined behaviour. *)
Theorem flag_wake_on_empty_is_undefined (s : proqueue T World) :
  shutdown_required s = true → empty s = true →
  wpc s = AtCheck ∨ wpc s = Woken →
  run [worker; worker] s = Some Undefined.
Proof.
  intros Hf He Hpc. unfold empty in He.
  destruct (base s) as [|t rest] eqn:Hb; [|done].
  simpl. unfold thread_work_step, state_is_ready, wait_pred, empty, goto.
  destruct Hpc as [-> | ->]; rewrite Hf, Hb; simpl;
    by rewrite proc_one_empty.
Qed.

Lemma drain_from_test (n : nat) (s : proqueue T World) :
  wpc s = DrainTest → size s = n →
  ∃ s', run (replicate (2 * n + 1) worker) s = Some (Ok tt s') ∧
        wpc s' = Exited ∧ base s' = [] ∧ tasks s' = tasks s ∧
        shutdown_required s' = shutdown_required s ∧
        joinable s' = joinable s ∧
        length (calls s') = length (calls s) + n * tasks_count s.
Proof.
  revert s. induction n as [|n IH]; intros s Hpc Hn; unfold size in Hn.
  - apply nil_length_inv in Hn. exists (set_wpc Exited s).
    simpl. unfold thread_work_step, empty, goto. rewrite Hpc, Hn. simpl.
    repeat split; try done; lia.
  - destruct (base s) as [|t rest] eqn:Hb; [done|]. simpl in Hn.
    replace (2 * S n + 1) with (S (S (2 * n + 1))) by lia.
    rewrite !replicate_S.
    rewrite (run_worker_ok s (set_wpc DrainProc s)).
    2:{ unfold thread_work_step, empty, goto. by rewrite Hpc, Hb. }
    destruct (proc_one_effects (set_wpc DrainProc s) t rest Hb) as
      (s1 & Hp & Hb1 & Ht1 & Hf1 & Hj1 & _ & Hc1).
    rewrite (run_worker_ok _ (set_wpc DrainTest s1)).
    2:{ unfold thread_work_step. simpl. by rewrite Hp. }
    destruct (IH (set_wpc DrainTest s1)) as
      (s' & Hr & Hpc' & Hb' & Ht' & Hf' & Hj' & Hc'); [done| |].
    { unfold size. simpl. rewrite Hb1. lia. }
    exists s'. simpl in *. unfold tasks_count in *. simpl in *.
    rewrite Ht1 in *. repeat split; try congruence. lia.
Qed.

(** X8: the second loop of [thread_work].  A worker that finds the flag up
    at the loop test (line 74), left alone, calls [proc_one] once for every
    stored value, so it invokes every registered callback once per value,
    then returns from [thread_work] with the queue empty; a call to [stop]
    then returns and leaves the thread handle not joinable. *)
Theorem drain_loop_empties_and_exits (s : proqueue T World) :
  wpc s = AtLoop → shutdown_required s = true → joinable s = true →
  ∃ s', run (replicate (2 * size s + 2) worker) s = Some (Ok tt s') ∧
        wpc s' = Exited ∧ base s' = [] ∧ tasks s' = tasks s ∧
        length (calls s') = length (calls s) + size s * tasks_count s ∧
        stop s' = Some (Ok tt (set_joinable false s')).
Proof.
  intros Hpc Hf Hj.
  destruct (drain_from_test (size s) (set_wpc DrainTest s)) as
    (s' & Hr & Hpc' & Hb' & Ht' & _ & Hj' & Hc'); [done|done|].
  exists s'. replace (2 * size s + 2) with (S (2 * size s + 1)) by lia.
  rewrite replicate_S, (run_worker_ok s (set_wpc DrainTest s)).
  2:{ unfold thread_work_step, goto. by rewrite Hpc, Hf. }
  repeat split; try done.
  unfold stop, notify_one, stop_join, thread_join.
  simpl in Hj'. by rewrite Hpc', Hj', Hj, Hpc'.
Qed.

(** X9: [size()] counts: a push adds one, on every queue; [empty()] is
    [size() == 0]; a [proc_one] that returns normally removes one (so the
    queue it ran on was not empty), and the queue it leaves is empty exactly
    when one value was stored. *)
Theorem size_bookkeeping (s : proqueue T World) (t : T) :
  size (push t s) = S (size s) ∧
  (empty s = true ↔ size s = 0) ∧
  (∀ s' : proqueue T World,
     proc_one s = Ok tt s' →
     size s = S (size s') ∧ empty s = false ∧
     (empty s' = true ↔ size s = 1)).
Proof.
  unfold size, empty. split; [|split].
  - simpl. rewrite length_app. simpl. lia.
  - destruct (base s); simpl; split; done || lia.
  - intros s'. destruct (base s) as [|t0 rest] eqn:Hb.
    + by rewrite (proc_one_empty s Hb).
    + destruct (proc_one_effects s t0 rest Hb) as (s1 & -> & Hb1 & _).
      intros [= <-]. rewrite Hb1. simpl.
      repeat split; try lia; destruct rest; simpl; done || lia.
Qed.

(** X10: after [push(t)] the queue is not empty, [back()] is [t], and
    [front()] is the value that was at the front before, or [t] if there was
    none; neither call changes the queue. *)
Theorem push_then_back_and_front (s : proqueue T World) (t : T) :
  empty (push t s) = false ∧
  back (push t s) = Ok t (push t s) ∧
  front (push t s) = Ok (default t (head (base s))) (push t s).
Proof.
  unfold empty, back, front. simpl. rewrite last_snoc.
  by destruct (base s).
Qed.

End worker_facts.

(** ** More on the log *)

Section more_log_facts.

Context {T : Type}.

Lemma drain_logs_from_test (n : nat) (s : proqueue T (list T)) :
  logs_only s → wpc s = DrainTest → size s = n →
  ∃ s', run (replicate (2 * n + 1) worker) s = Some (Ok tt s') ∧
        wpc s' = Exited ∧ base s' = [] ∧ world s' = world s ++ base s.
Proof.
  revert s. induction n as [|n IH]; intros s Hlog Hpc Hn; unfold size in Hn.
  - apply nil_length_inv in Hn. exists (set_wpc Exited s).
    simpl. unfold thread_work_step, empty, goto. rewrite Hpc, Hn. simpl.
    by rewrite app_nil_r.
  - destruct (base s) as [|t rest] eqn:Hb; [done|]. simpl in Hn.
    replace (2 * S n + 1) with (S (S (2 * n + 1))) by lia.
    rewrite !replicate_S.
    rewrite (run_worker_ok s (set_wpc DrainProc s)).
    2:{ unfold thread_work_step, empty, goto. by rewrite Hpc, Hb. }
    destruct (proc_one_logs (set_wpc DrainProc s) t rest Hlog Hb) as
      (s1 & Hp & Hlog1 & _ & Hw1 & Hb1).
    rewrite (run_worker_ok _ (set_wpc DrainTest s1)).
    2:{ unfold thread_work_step. simpl. by rewrite Hp. }
    destruct (IH (set_wpc DrainTest s1)) as (s' & Hr & Hpc' & Hb' & Hw');
      [done|done| |].
    { unfold size. simpl. rewrite Hb1. lia. }
    exists s'. simpl in *. rewrite Hw', Hw1, Hb1, <- app_assoc. done.
Qed.

(** X13: drain on shutdown.  With the logging callback alone, a worker that
    finds the flag up at the loop test and is left alone appends every
    stored value to the log, in order, and returns from [thread_work] with
    the queue empty. *)
Theorem drain_logs_everything (s : proqueue T (list T)) :
  logs_only s → wpc s = AtLoop → shutdown_required s = true →
  ∃ s', run (replicate (2 * size s + 2) worker) s = Some (Ok tt s') ∧
        wpc s' = Exited ∧ base s' = [] ∧ world s' = world s ++ base s.
Proof.
  intros Hlog Hpc Hf.
  destruct (drain_logs_from_test (size s) (set_wpc DrainTest s)) as
    (s' & Hr & Hpc' & Hb' & Hw'); [done|done|done|].
  exists s'. replace (2 * size s + 2) with (S (2 * size s + 1)) by lia.
  rewrite replicate_S, (run_worker_ok s (set_wpc DrainTest s)).
  2:{ unfold thread_work_step, goto. by rewrite Hpc, Hf. }
  done.
Qed.

End more_log_facts.

(** ** Instances of the further properties *)

Lemma first_loop_iteration_witness :
  (∃ s1, proc_one (push 7 logged_queue) = Ok tt s1 ∧
         run (replicate 4 worker) (push 7 logged_queue) = Some (Ok tt s1) ∧
         wpc s1 = AtLoop ∧ size (push 7 logged_queue) = S (size s1)) ∧
  run (replicate 3 worker) logged_queue
    = Some (Ok tt (set_wpc Waiting logged_queue)) ∧
  run (replicate 4 worker) logged_queue = None.
Proof.
  split.
  - apply (first_loop_iteration (push 7 logged_queue) eq_refl eq_refl).
    reflexivity.
  - apply (first_loop_iteration logged_queue eq_refl eq_refl). reflexivity.
Defined.

Lemma pushes_leave_sleeping_worker_asleep_witness :
  run (call_push <$> [0; 1; 2; 3; 4]) waiting_queue
    = Some (Ok tt (set_base (base waiting_queue ++ [0; 1; 2; 3; 4])
                     waiting_queue)) ∧
  step worker (set_base (base waiting_queue ++ [0; 1; 2; 3; 4])
                 waiting_queue) = None.
Proof.
  exact (pushes_leave_sleeping_worker_asleep waiting_queue [0; 1; 2; 3; 4]
           eq_refl).
Defined.

Lemma flag_wake_on_empty_is_undefined_witness :
  run [worker; worker] woken_by_shutdown = Some Undefined.
Proof.
  apply (flag_wake_on_empty_is_undefined woken_by_shutdown eq_refl eq_refl).
  right. reflexivity.
Defined.

Lemma drain_loop_empties_and_exits_witness :
  ∃ s', run (replicate (2 * size flagged_queue + 2) worker) flagged_queue
          = Some (Ok tt s') ∧
        wpc s' = Exited ∧ base s' = [] ∧ tasks s' = tasks flagged_queue ∧
        length (calls s')
          = length (calls flagged_queue)
            + size flagged_queue * tasks_count flagged_queue ∧
        stop s' = Some (Ok tt (set_joinable false s')).
Proof.
  exact (drain_loop_empties_and_exits flagged_queue eq_refl eq_refl eq_refl).
Defined.

Lemma size_bookkeeping_witness :
  size (push 7 logged_queue) = S (size logged_queue) ∧
  (empty logged_queue = true ↔ size logged_queue = 0) ∧
  ∃ s', proc_one two_task_queue = Ok tt s' ∧
        size two_task_queue = S (size s') ∧
        empty two_task_queue = false ∧
        (empty s' = true ↔ size two_task_queue = 1).
Proof.
  destruct (size_bookkeeping logged_queue 7) as (Hpush & Hempty & _).
  destruct (size_bookkeeping two_task_queue 7) as (_ & _ & Hproc).
  split; [exact Hpush|]. split; [exact Hempty|].
  eexists. split; [vm_compute; reflexivity|].
  apply Hproc. vm_compute. reflexivity.
Defined.

Lemma drain_logs_everything_witness :
  ∃ s', run (replicate (2 * size flagged_queue + 2) worker) flagged_queue
          = Some (Ok tt s') ∧
        wpc s' = Exited ∧ base s' = [] ∧
        world s' = world flagged_queue ++ base flagged_queue.
Proof.
  exact (drain_logs_everything flagged_queue eq_refl eq_refl eq_refl).
Defined.

End Elh.
